(** * bigchaindb_driver.transport: the retrying request dispatcher

    A shallow embedding of [Transport.forward_request]
    (src/bigchaindb_driver/transport.py) and the properties of its retry
    loop: budget accounting, timeout exhaustion, error propagation.

    Conventions of the embedding.
    - Python numbers holding seconds ([self.timeout], the readings of
      [time()], their differences) are exact rationals [Q]; the rounding of
      binary floating point is not modelled.
    - The pool, the connections and the clock are collaborators whose code
      is outside transport.py.  They are operations on an abstract [World],
      threaded explicitly through the loop; every theorem holds for all of
      them.  [get_connection()] and [time()] always return; a request
      returns a response or raises.
    - Every call the loop makes on a collaborator is appended to the
      [events] of the frame, in program order, with what it returned.
    - The [while] loop is unrolled by a step count ([run]); [Next] is a loop
      that is still running, [Exit] one that has left [forward_request]. *)

From Stdlib Require Import ZArith QArith Lqa Lia String Bool Arith List.
Import ListNotations.
Open Scope string_scope.
Open Scope list_scope.
Open Scope Q_scope.

(** ** Data *)

(** [dict] of header names to values. *)
Definition Headers := list (string * string).

(** One element of [*nodes]: a dict with the keys ['endpoint'] and
    ['headers']. *)
Record Node := { endpoint : string; headers : Headers }.

(** [Connection(node_url=..., headers=...)]: only the constructor's
    arguments are known to transport.py. *)
Record Connection := { node_url : string; connection_headers : Headers }.

(** [Pool([...])] is given by the connections it was built from; what it
    remembers between calls lives in the world. *)
Record Transport := {
  self_nodes : list Node;
  self_timeout : option Q;
  self_connection_pool : list Connection
}.

(** [Transport.__init__(self, *nodes, headers=None, timeout=None)].  The
    [headers] argument is accepted and not used: each connection takes the
    headers of its own node. *)
Definition Transport_init (nodes : list Node) (hdrs : option Headers)
    (timeout : option Q) : Transport :=
  {| self_nodes := nodes;
     self_timeout := timeout;
     self_connection_pool :=
       map (fun node => {| node_url := endpoint node;
                           connection_headers := headers node |}) nodes |}.

(** [timeout > 0] on numbers. *)
Definition Qpositive (t : Q) : bool := negb (Qle_bool t 0).

(** [timeout is None or timeout > 0], the condition of the [while]. *)
Definition loop_condition (timeout : option Q) : bool :=
  match timeout with
  | None => true
  | Some t => Qpositive t
  end.

(** [if timeout is not None: timeout -= elapsed]. *)
Definition charge (timeout : option Q) (elapsed : Q) : option Q :=
  match timeout with
  | None => None
  | Some t => Some (t - elapsed)
  end.

(** Modelled from the spec: the arguments of
    [pool.reportOutcome(node, success, now)] of section 4.3, by which a
    dispatcher would tell the pool how a call on a node ended.  pool.py is
    not part of the sources. *)
Record ReportOutcome := {
  reported_node : Connection;
  reported_success : bool
}.

(** The values that cross the boundary with the HTTP layer. *)
Class Wire := {
  (** JSON values: request payloads and decoded response bodies. *)
  Json : Type;
  (** What [connection.request] returns, and its [.data] attribute. *)
  Response : Type;
  data : Response -> Json;
  (** Exception objects, and [isinstance(err, ConnectionError)] for
      [requests.exceptions.ConnectionError]. *)
  Exn : Type;
  is_ConnectionError : Exn -> bool
}.

Section Messages.

Context {W : Wire}.

(** The arguments of [forward_request], handed on to
    [connection.request] as they are. *)
Record RequestArgs := {
  method : string;
  path : option string;
  json : option Json;
  params : option Headers;
  request_headers : option Headers
}.

(** How a call of [connection.request] ends. *)
Inductive Outcome :=
| Responded (response : Response)
| Raised (err : Exn).

End Messages.

(** The collaborators: pool, network and clock, as operations on the state
    of the world outside [forward_request]. *)
Class Collaborators {W : Wire} := {
  World : Type;
  (** [self.connection_pool.get_connection()] *)
  get_connection : list Connection -> World -> Connection * World;
  (** [time()] *)
  time : World -> Q * World;
  (** [connection.request(method=..., ..., timeout=...)] *)
  request : Connection -> RequestArgs -> option Q -> World -> Outcome * World
}.

Section ForwardRequest.

Context {W : Wire} {C : Collaborators}.

(** Calls made on the collaborators, with their results: the pool's
    [get_connection()] and the connection it returned, [time()] and its
    reading, [connection.request(...)] with the timeout it was given and
    how it ended; and a report to the pool, which no line of transport.py
    makes, so that [iteration] never records one. *)
Inductive Event :=
| EvGetConnection (c : Connection)
| EvTime (t : Q)
| EvRequest (c : Connection) (a : RequestArgs) (timeout : option Q)
            (o : Outcome)
| EvReportOutcome (r : ReportOutcome).

(** The local variables of [forward_request], the world, and the calls
    made so far. *)
Record Frame := {
  error_trace : list Exn;
  timeout : option Q;
  world : World;
  events : list Event
}.

(** How [forward_request] ends: [return response.data],
    [raise TimeoutError(error_trace)], or an exception of
    [connection.request] that no [except] clause caught. *)
Inductive Result :=
| Return (d : Json)
| RaiseTimeoutError (trace : list Exn)
| Propagate (err : Exn).

(** What the [try] statement is about to do when its [finally] clause
    runs. *)
Inductive Pending :=
| Continue
| Returning (d : Json)
| Raising (err : Exn).

Inductive Control :=
| Next (f : Frame)
| Exit (r : Result) (f : Frame).

Definition frame_of (c : Control) : Frame :=
  match c with
  | Next f => f
  | Exit _ f => f
  end.

Definition result_of (c : Control) : option Result :=
  match c with
  | Next _ => None
  | Exit r _ => Some r
  end.

(** [error_trace = []; timeout = self.timeout]. *)
Definition entry (self : Transport) (w : World) : Frame :=
  {| error_trace := []; timeout := self_timeout self; world := w;
     events := [] |}.

(** One evaluation of the loop condition and, when it holds, of the loop
    body (lines 63-84); line 86 when it does not. *)
Definition iteration (self : Transport) (args : RequestArgs) (f : Frame)
  : Control :=
  if loop_condition (timeout f) then
    let '(connection, w1) :=
      get_connection (self_connection_pool self) (world f) in
    let '(start, w2) := time w1 in
    (* try *)
    let '(outcome, w3) := request connection args (timeout f) w2 in
    let '(pending, error_trace') :=
      match outcome with
      | Raised err =>
          if is_ConnectionError err
          then (* except ConnectionError as err *)
            (Continue, error_trace f ++ [err])
          else (Raising err, error_trace f)
      | Responded response => (* else *)
          (Returning (data response), error_trace f)
      end in
    (* finally *)
    let '(now, w4) := time w3 in
    let elapsed := now - start in
    let f' :=
      {| error_trace := error_trace';
         timeout := charge (timeout f) elapsed;
         world := w4;
         events := events f ++
           [EvGetConnection connection; EvTime start;
            EvRequest connection args (timeout f) outcome; EvTime now] |} in
    match pending with
    | Continue => Next f'
    | Returning d => Exit (Return d) f'
    | Raising err => Exit (Propagate err) f'
    end
  else Exit (RaiseTimeoutError (error_trace f)) f.

(** At most [fuel] evaluations of the loop condition. *)
Fixpoint run (self : Transport) (args : RequestArgs) (fuel : nat)
    (f : Frame) : Control :=
  match fuel with
  | O => Next f
  | S fuel' =>
      match iteration self args f with
      | Next f' => run self args fuel' f'
      | Exit r f' => Exit r f'
      end
  end.

(** [Transport.forward_request(self, method, path, json, params,
    headers)], started in world [w]. *)
Definition forward_request (self : Transport) (args : RequestArgs)
    (w : World) (fuel : nat) : Control :=
  run self args fuel (entry self w).

(** ** Reading the events back

    Each pass through the loop body makes four calls, in this order. *)
Record Attempt := {
  connection : Connection;
  sent : RequestArgs;
  passed_timeout : option Q;
  started : Q;
  finished : Q;
  outcome : Outcome
}.

Definition events_of (a : Attempt) : list Event :=
  [EvGetConnection (connection a); EvTime (started a);
   EvRequest (connection a) (sent a) (passed_timeout a) (outcome a);
   EvTime (finished a)].

Fixpoint attempts_of (evs : list Event) : list Attempt :=
  match evs with
  | EvGetConnection _ :: EvTime t0 :: EvRequest c a tmo o :: EvTime t1
      :: rest =>
      {| connection := c; sent := a; passed_timeout := tmo;
         started := t0; finished := t1; outcome := o |}
      :: attempts_of rest
  | _ => []
  end.

Definition attempts (f : Frame) : list Attempt := attempts_of (events f).

(** [elapsed = time() - start] of one attempt. *)
Definition elapsed (a : Attempt) : Q := finished a - started a.

Fixpoint total_elapsed (l : list Attempt) : Q :=
  match l with
  | [] => 0
  | a :: l' => elapsed a + total_elapsed l'
  end.

(** The request raised an exception that [except ConnectionError]
    catches. *)
Definition connection_failure (o : Outcome) : bool :=
  match o with
  | Raised err => is_ConnectionError err
  | Responded _ => false
  end.

Definition failed_to_connect (a : Attempt) : Prop :=
  connection_failure (outcome a) = true.

(** The connection errors among the outcomes, in order. *)
Fixpoint connection_errors (l : list Attempt) : list Exn :=
  match l with
  | [] => []
  | a :: l' =>
      match outcome a with
      | Raised err =>
          if is_ConnectionError err
          then err :: connection_errors l'
          else connection_errors l'
      | Responded _ => connection_errors l'
      end
  end.

(** What is left of a budget after the attempts of [l]. *)
Definition remaining (budget : option Q) (l : list Attempt) : option Q :=
  fold_left (fun b a => charge b (elapsed a)) l budget.

(** Every attempt was given all that was left of the budget, and was
    made with the loop condition true. *)
Fixpoint budgeted (budget : option Q) (l : list Attempt) : Prop :=
  match l with
  | [] => True
  | a :: l' =>
      passed_timeout a = budget /\ loop_condition budget = true /\
      budgeted (charge budget (elapsed a)) l'
  end.

(** The calls on the pool that report an outcome. *)
Definition is_report (e : Event) : bool :=
  match e with
  | EvReportOutcome _ => true
  | _ => false
  end.

(** ** The loop as a step relation

    [tried args g a f]: the body ran once from frame [g] with the loop
    condition true, made the calls of attempt [a] and charged its
    elapsed time, leaving [f]. *)
Record tried (args : RequestArgs) (g : Frame) (a : Attempt) (f : Frame)
  : Prop := {
  tried_condition : loop_condition (timeout g) = true;
  tried_sent : sent a = args;
  tried_timeout : passed_timeout a = timeout g;
  tried_events : events f = events g ++ events_of a;
  tried_charge : timeout f = charge (timeout g) (elapsed a)
}.

Inductive Step (args : RequestArgs) (g : Frame) : Control -> Prop :=
| step_timeout :
    loop_condition (timeout g) = false ->
    Step args g (Exit (RaiseTimeoutError (error_trace g)) g)
| step_retry a err f :
    tried args g a f ->
    outcome a = Raised err -> is_ConnectionError err = true ->
    error_trace f = error_trace g ++ [err] ->
    Step args g (Next f)
| step_return a response f :
    tried args g a f ->
    outcome a = Responded response ->
    error_trace f = error_trace g ->
    Step args g (Exit (Return (data response)) f)
| step_propagate a err f :
    tried args g a f ->
    outcome a = Raised err -> is_ConnectionError err = false ->
    error_trace f = error_trace g ->
    Step args g (Exit (Propagate err) f).

(** What holds of every frame the loop reaches. *)
Record Consistent (self : Transport) (f : Frame) : Prop := {
  consistent_events : events f = flat_map events_of (attempts f);
  consistent_trace : error_trace f = connection_errors (attempts f);
  consistent_timeout :
    timeout f = remaining (self_timeout self) (attempts f);
  consistent_budget : budgeted (self_timeout self) (attempts f)
}.

(** What holds as long as the loop has not been left: every attempt so
    far ended in a connection error. *)
Definition Looping (self : Transport) (f : Frame) : Prop :=
  Consistent self f /\ Forall failed_to_connect (attempts f).

(** How the loop was left, read from the final frame. *)
Inductive Left (f : Frame) : Result -> Prop :=
| left_timeout :
    Forall failed_to_connect (attempts f) ->
    loop_condition (timeout f) = false ->
    Left f (RaiseTimeoutError (error_trace f))
| left_return l a response :
    attempts f = l ++ [a] -> Forall failed_to_connect l ->
    outcome a = Responded response ->
    Left f (Return (data response))
| left_propagate l a err :
    attempts f = l ++ [a] -> Forall failed_to_connect l ->
    outcome a = Raised err -> is_ConnectionError err = false ->
    Left f (Propagate err).

End ForwardRequest.

(** ** A scripted world

    A world in which the pool hands out its connections in turn, the clock
    moves only while a request is in flight, and the requests end as a
    script says: each entry gives the outcome of one request and the
    seconds it takes.  When the script is used up every request is refused
    after one second. *)
Module Scripted.

Inductive PyExn :=
| ConnectionError (msg : string)
| OtherError (msg : string).

Definition wire : Wire :=
  {| Json := string;
     Response := Z * string;
     data := snd;
     Exn := PyExn;
     is_ConnectionError :=
       fun err => match err with
                  | ConnectionError _ => true
                  | OtherError _ => false
                  end |}.

Record world := {
  clock : Q;
  turn : nat;
  script : list (@Outcome wire * Q)
}.

Definition nowhere : Connection :=
  {| node_url := EmptyString; connection_headers := [] |}.

Definition refused : @Outcome wire :=
  @Raised wire (ConnectionError "refused").

Definition collaborators : @Collaborators wire :=
  {| World := world;
     get_connection := fun pool w =>
       (nth (Nat.modulo (turn w) (List.length pool)) pool nowhere,
        {| clock := clock w; turn := S (turn w); script := script w |});
     time := fun w => (clock w, w);
     request := fun _ _ _ w =>
       match script w with
       | [] =>
           (refused,
            {| clock := clock w + 1; turn := turn w; script := [] |})
       | (o, d) :: rest =>
           (o, {| clock := clock w + d; turn := turn w; script := rest |})
       end |}.

Definition start (steps : list (@Outcome wire * Q)) : world :=
  {| clock := 100; turn := 0; script := steps |}.

Definition two_nodes : list Node :=
  [ {| endpoint := "http://a:9984"; headers := [] |};
    {| endpoint := "http://b:9984"; headers := [] |} ].

Definition get : @RequestArgs wire :=
  {| method := "GET"; path := Some "/transactions"; json := None;
     params := None; request_headers := None |}.

Definition a : Connection :=
  {| node_url := "http://a:9984"; connection_headers := [] |}.
Definition b : Connection :=
  {| node_url := "http://b:9984"; connection_headers := [] |}.

Definition ok (body : string) : @Outcome wire :=
  @Responded wire (200%Z, body).
Definition broken (msg : string) : @Outcome wire :=
  @Raised wire (OtherError msg).

Definition transport (timeout : option Q) : Transport :=
  Transport_init two_nodes None timeout.

(** [forward_request] of a transport over [two_nodes]. *)
Definition dispatch (timeout : option Q)
    (steps : list (@Outcome wire * Q)) (fuel : nat) :=
  @forward_request wire collaborators (transport timeout) get
    (start steps) fuel.

(** One refused connection, then a response. *)
Definition flaky : list (@Outcome wire * Q) :=
  [(refused, 2); (ok "{}", 1 # 2)].

(** One refused connection, then an error of another kind. *)
Definition faulty : list (@Outcome wire * Q) :=
  [(refused, 1); (broken "500", 1)].

End Scripted.

(** ** A world without reachable nodes

    Every request is refused at once and the clock stands still; the world
    counts the requests made. *)
Module Unreachable.

Definition collaborators : @Collaborators Scripted.wire :=
  {| World := nat;
     get_connection := fun pool w => (nth 0 pool Scripted.nowhere, w);
     time := fun w => (100, w);
     request := fun _ _ _ w => (Scripted.refused, S w) |}.

(** [forward_request] of a transport over [Scripted.two_nodes]. *)
Definition dispatch (timeout : option Q) (fuel : nat) :=
  @forward_request Scripted.wire collaborators (Scripted.transport timeout)
    Scripted.get 0%nat fuel.

End Unreachable.

(** * Properties *)

Section Properties.

Context {W : Wire} {C : Collaborators}.

Implicit Types (self : Transport) (args : RequestArgs).
Implicit Types (f g : Frame) (l : list Attempt) (a : Attempt).

(** ** Numbers and budgets *)

Lemma Qpositive_true t : Qpositive t = true <-> 0 < t.
Proof.
  unfold Qpositive. rewrite negb_true_iff, <- not_true_iff_false.
  rewrite Qle_bool_iff. split.
  - apply Qnot_le_lt.
  - apply Qlt_not_le.
Qed.

Lemma Qpositive_false t : Qpositive t = false <-> t <= 0.
Proof.
  unfold Qpositive. rewrite negb_false_iff. apply Qle_bool_iff.
Qed.


Lemma remaining_app budget l l' :
  remaining budget (l ++ l') = remaining (remaining budget l) l'.
Proof. apply fold_left_app. Qed.

Lemma remaining_None l : remaining None l = None.
Proof. induction l as [|a l IH]; simpl; auto. Qed.

Lemma remaining_Some T l :
  exists t, remaining (Some T) l = Some t /\ t == T - total_elapsed l.
Proof.
  revert T. induction l as [|a l IH]; intros T; simpl.
  - exists T. split; [reflexivity | ring].
  - destruct (IH (T - elapsed a)) as (t & Ht & Heq).
    exists t. split; [exact Ht | rewrite Heq; ring].
Qed.

Lemma budgeted_app budget l l' :
  budgeted budget (l ++ l') <->
  budgeted budget l /\ budgeted (remaining budget l) l'.
Proof.
  revert budget. induction l as [|a l IH]; intros budget; simpl.
  - tauto.
  - rewrite IH. tauto.
Qed.

(** ** Reading the events back *)

Lemma nth_error_lt {A} (xs : list A) i x :
  nth_error xs i = Some x -> (i < length xs)%nat.
Proof. intros H. apply nth_error_Some. congruence. Qed.

Lemma attempts_of_events l rest :
  attempts_of (flat_map events_of l ++ rest) = l ++ attempts_of rest.
Proof.
  induction l as [|[c s p t0 t1 o] l IH]; simpl.
  - reflexivity.
  - now rewrite IH.
Qed.

Lemma no_report l : existsb is_report (flat_map events_of l) = false.
Proof. induction l as [|a l IH]; simpl; auto. Qed.

Lemma connection_errors_app l l' :
  connection_errors (l ++ l') =
  connection_errors l ++ connection_errors l'.
Proof.
  induction l as [|a l IH]; simpl; [reflexivity|].
  destruct (outcome a) as [r|err]; [exact IH|].
  destruct (is_ConnectionError err); simpl; now rewrite IH.
Qed.

Lemma connection_errors_caught l err :
  In err (connection_errors l) -> is_ConnectionError err = true.
Proof.
  induction l as [|a l IH]; simpl; [tauto|].
  destruct (outcome a) as [r|err']; [exact IH|].
  destruct (is_ConnectionError err') eqn:E; [|exact IH].
  intros [<-|H]; auto.
Qed.

Lemma connection_errors_length l :
  Forall failed_to_connect l ->
  length (connection_errors l) = length l.
Proof.
  induction 1 as [|a l Ha _ IH]; simpl; [reflexivity|].
  unfold failed_to_connect, connection_failure in Ha.
  destruct (outcome a) as [r|err]; [discriminate|].
  rewrite Ha. simpl. now rewrite IH.
Qed.


(** ** One step of the loop *)

Lemma iteration_Step self args g : Step args g (iteration self args g).
Proof.
  unfold iteration.
  destruct (loop_condition (timeout g)) eqn:Hcond;
    [|now apply step_timeout].
  destruct (get_connection _ _) as [c w1].
  destruct (time w1) as [t0 w2].
  destruct (request c args (timeout g) w2) as [o w3].
  destruct (time w3) as [t1 w4].
  pose (a := {| connection := c; sent := args;
                passed_timeout := timeout g; started := t0;
                finished := t1; outcome := o |}).
  assert (Ha : forall f, events f = events g ++ events_of a ->
               timeout f = charge (timeout g) (elapsed a) ->
               tried args g a f) by (intros; now split).
  destruct o as [response|err];
    [|destruct (is_ConnectionError err) eqn:Herr].
  - apply (step_return args g a response); auto.
  - apply (step_retry args g a err); auto.
  - apply (step_propagate args g a err); auto.
Qed.

Lemma attempts_of_one a : attempts_of (events_of a) = [a].
Proof. now destruct a. Qed.

Lemma tried_attempts args g a f :
  tried args g a f ->
  events g = flat_map events_of (attempts g) ->
  attempts f = attempts g ++ [a].
Proof.
  intros Ht Hg. unfold attempts in *.
  pose proof (attempts_of_events (attempts_of (events g)) (events_of a))
    as P.
  rewrite <- Hg, attempts_of_one in P.
  now rewrite (tried_events _ _ _ _ Ht).
Qed.

Lemma tried_Consistent self args g a f :
  Consistent self g -> tried args g a f ->
  error_trace f = connection_errors (attempts g ++ [a]) ->
  Consistent self f.
Proof.
  intros Hg Ht Htrace.
  pose proof (tried_attempts _ _ _ _ Ht (consistent_events _ _ Hg)) as Ha.
  split; rewrite Ha.
  - rewrite (tried_events _ _ _ _ Ht), flat_map_app. simpl.
    f_equal. apply (consistent_events _ _ Hg).
  - exact Htrace.
  - rewrite (tried_charge _ _ _ _ Ht), remaining_app. simpl.
    now rewrite (consistent_timeout _ _ Hg).
  - apply budgeted_app. split; [apply (consistent_budget _ _ Hg)|].
    simpl. rewrite <- (consistent_timeout _ _ Hg).
    repeat split.
    + apply (tried_timeout _ _ _ _ Ht).
    + apply (tried_condition _ _ _ _ Ht).
Qed.

Lemma Step_Next self args g f :
  Looping self g -> Step args g (Next f) ->
  Looping self f /\
  exists a err,
    tried args g a f /\ attempts f = attempts g ++ [a] /\
    outcome a = Raised err /\ is_ConnectionError err = true /\
    error_trace f = error_trace g ++ [err].
Proof.
  intros [Hg Hall] Hstep. inversion Hstep as [|a err f' Ht Ho He Htr| |].
  subst f'.
  pose proof (tried_attempts _ _ _ _ Ht (consistent_events _ _ Hg)) as Ha.
  assert (Hfail : failed_to_connect a).
  { unfold failed_to_connect. now rewrite Ho. }
  split; [split|].
  - apply (tried_Consistent self args g a f Hg Ht).
    rewrite connection_errors_app, Htr, (consistent_trace _ _ Hg).
    simpl. now rewrite Ho, He.
  - rewrite Ha. apply Forall_app. auto.
  - exists a, err. auto.
Qed.

Lemma Step_Exit self args g r f :
  Looping self g -> Step args g (Exit r f) ->
  Consistent self f /\ Left f r /\
  (attempts f = attempts g \/
   exists a, attempts f = attempts g ++ [a] /\
             connection_failure (outcome a) = false).
Proof.
  intros [Hg Hall] Hstep.
  inversion Hstep as [Hc| |a resp f' Ht Ho Htr|a err f' Ht Ho He Htr];
    subst.
  - split; [exact Hg|]. split; [now apply left_timeout | now left].
  - pose proof (tried_attempts _ _ _ _ Ht (consistent_events _ _ Hg))
      as Ha.
    split; [|split].
    + apply (tried_Consistent self args g a f Hg Ht).
      rewrite connection_errors_app, Htr, (consistent_trace _ _ Hg).
      simpl. rewrite Ho. now rewrite app_nil_r.
    + now apply (left_return f (attempts g) a resp).
    + right. exists a. rewrite Ho. auto.
  - pose proof (tried_attempts _ _ _ _ Ht (consistent_events _ _ Hg))
      as Ha.
    split; [|split].
    + apply (tried_Consistent self args g a f Hg Ht).
      rewrite connection_errors_app, Htr, (consistent_trace _ _ Hg).
      simpl. rewrite Ho, He. now rewrite app_nil_r.
    + now apply (left_propagate f (attempts g) a err).
    + right. exists a. rewrite Ho. auto.
Qed.

(** ** The unrolled loop *)

Lemma run_unfold self args n g :
  run self args (S n) g =
  match iteration self args g with
  | Next f' => run self args n f'
  | Exit r f' => Exit r f'
  end.
Proof. reflexivity. Qed.

Lemma run_S self args n g :
  run self args (S n) g =
  match run self args n g with
  | Next f => iteration self args f
  | Exit r f => Exit r f
  end.
Proof.
  revert g. induction n as [|n IH]; intros g.
  - simpl. now destruct (iteration self args g).
  - change (run self args (S (S n)) g)
      with (match iteration self args g with
            | Next f' => run self args (S n) f'
            | Exit r f' => Exit r f'
            end).
    change (run self args (S n) g)
      with (match iteration self args g with
            | Next f' => run self args n f'
            | Exit r f' => Exit r f'
            end).
    destruct (iteration self args g) as [f'|r f']; [apply IH|reflexivity].
Qed.

Lemma run_stable self args n m g r f :
  (n <= m)%nat -> run self args n g = Exit r f ->
  run self args m g = Exit r f.
Proof.
  induction 1 as [|m _ IH]; intros H; [exact H|].
  now rewrite run_S, IH.
Qed.

Lemma entry_Looping self w : Looping self (entry self w).
Proof. split; [split|]; simpl; auto. Qed.

Lemma run_Looping self args n g :
  Looping self g ->
  match run self args n g with
  | Next f =>
      Looping self f /\
      length (attempts f) = (length (attempts g) + n)%nat
  | Exit r f =>
      Consistent self f /\ Left f r /\
      exists j h, (j < n)%nat /\ run self args j g = Next h /\
                  Looping self h /\
                  length (attempts h) = (length (attempts g) + j)%nat /\
                  iteration self args h = Exit r f
  end.
Proof.
  intros Hg. induction n as [|n IH].
  - simpl. split; [exact Hg | lia].
  - rewrite run_S. destruct (run self args n g) as [h|r h] eqn:Hn.
    + destruct IH as [Hh Hlen].
      pose proof (iteration_Step self args h) as Hstep.
      destruct (iteration self args h) as [f|r f] eqn:Hit.
      * destruct (Step_Next self args h f Hh Hstep)
          as (Hf & a & err & _ & Ha & _).
        split; [exact Hf|]. rewrite Ha, length_app. simpl. lia.
      * destruct (Step_Exit self args h r f Hh Hstep) as (Hf & Hl & _).
        split; [exact Hf|]. split; [exact Hl|].
        exists n, h. auto.
    + destruct IH as (Hf & Hl & j & h' & Hj & Hrun & Hrest).
      split; [exact Hf|]. split; [exact Hl|].
      exists j, h'. split; [lia | auto].
Qed.

Lemma run_grows self args n m g :
  Looping self g -> (n <= m)%nat ->
  exists l, attempts (frame_of (run self args m g)) =
            attempts (frame_of (run self args n g)) ++ l.
Proof.
  intros Hg. induction 1 as [|m _ IH].
  - exists []. now rewrite app_nil_r.
  - destruct IH as [l Hl]. rewrite run_S.
    pose proof (run_Looping self args m g Hg) as Hm.
    destruct (run self args m g) as [h|r h]; [|now exists l].
    destruct Hm as [Hh _]. simpl in Hl.
    pose proof (iteration_Step self args h) as Hstep.
    destruct (iteration self args h) as [f|r f].
    + destruct (Step_Next self args h f Hh Hstep)
        as (_ & a & _ & _ & Ha & _).
      exists (l ++ [a]). simpl. now rewrite Ha, Hl, app_assoc.
    + destruct (Step_Exit self args h r f Hh Hstep)
        as (_ & _ & [Ha|(a & Ha & _)]).
      * exists l. simpl. now rewrite Ha.
      * exists (l ++ [a]). simpl. now rewrite Ha, Hl, app_assoc.
Qed.

(** ** Dispatches *)

Lemma forward_request_S self args w n :
  forward_request self args w (S n) =
  match forward_request self args w n with
  | Next f => iteration self args f
  | Exit r f => Exit r f
  end.
Proof. apply run_S. Qed.

Lemma forward_request_stable self args w n m r f :
  (n <= m)%nat -> forward_request self args w n = Exit r f ->
  forward_request self args w m = Exit r f.
Proof. apply run_stable. Qed.

Lemma forward_request_Looping self args w n :
  match forward_request self args w n with
  | Next f => Looping self f /\ length (attempts f) = n
  | Exit r f =>
      Consistent self f /\ Left f r /\
      exists j h, (j < n)%nat /\
                  forward_request self args w j = Next h /\
                  Looping self h /\ length (attempts h) = j /\
                  iteration self args h = Exit r f
  end.
Proof.
  exact (run_Looping self args n (entry self w) (entry_Looping self w)).
Qed.

Lemma forward_request_Consistent self args w n :
  Consistent self (frame_of (forward_request self args w n)).
Proof.
  pose proof (forward_request_Looping self args w n) as H.
  destruct (forward_request self args w n); simpl.
  - apply H.
  - apply H.
Qed.

Lemma forward_request_grows self args w n m :
  (n <= m)%nat ->
  exists l, attempts (frame_of (forward_request self args w m)) =
            attempts (frame_of (forward_request self args w n)) ++ l.
Proof. apply run_grows, entry_Looping. Qed.

(** No more attempts than evaluations of the loop condition. *)
Lemma forward_request_length self args w n :
  (length (attempts (frame_of (forward_request self args w n))) <= n)%nat.
Proof.
  pose proof (forward_request_Looping self args w n) as H.
  destruct (forward_request self args w n) as [f|r f]; simpl.
  - destruct H as [_ ->]. lia.
  - destruct H as (_ & _ & j & h & Hj & _ & Hh & Hlen & Hit).
    pose proof (iteration_Step self args h) as Hstep. rewrite Hit in Hstep.
    destruct (Step_Exit self args h r f Hh Hstep)
      as (_ & _ & [Ha|(a & Ha & _)]); rewrite Ha.
    + lia.
    + rewrite length_app. simpl. lia.
Qed.

(** The attempt in position [i] of a dispatch is the one made by the
    iteration after [i] retries, whatever its outcome. *)
Lemma attempt_step self args w m i a :
  nth_error (attempts (frame_of (forward_request self args w m))) i
    = Some a ->
  exists h f,
    forward_request self args w i = Next h /\
    Looping self h /\ length (attempts h) = i /\
    attempts h =
      firstn i (attempts (frame_of (forward_request self args w m))) /\
    tried args h a f /\ attempts f = attempts h ++ [a] /\
    match outcome a with
    | Responded response =>
        iteration self args h = Exit (Return (data response)) f /\
        error_trace f = error_trace h
    | Raised err =>
        if is_ConnectionError err
        then iteration self args h = Next f /\
             error_trace f = error_trace h ++ [err]
        else iteration self args h = Exit (Propagate err) f /\
             error_trace f = error_trace h
    end.
Proof.
  intros Hi.
  assert (Hlt : (i < m)%nat).
  { apply nth_error_lt in Hi.
    pose proof (forward_request_length self args w m). lia. }
  destruct (forward_request_grows self args w i m) as [l Hl]; [lia|].
  pose proof (forward_request_Looping self args w i) as Hstate.
  destruct (forward_request self args w i) as [h|r h] eqn:Hrun.
  - destruct Hstate as [Hh Hlen]. simpl in Hl.
    assert (Hfirst : attempts h =
      firstn i (attempts (frame_of (forward_request self args w m)))).
    { rewrite Hl, <- Hlen, firstn_app, Nat.sub_diag, firstn_all. simpl.
      now rewrite app_nil_r. }
    destruct (forward_request_grows self args w (S i) m) as [l' Hl'];
      [lia|].
    rewrite forward_request_S, Hrun in Hl'.
    pose proof (iteration_Step self args h) as Hstep.
    assert (Hsame : forall a' f, tried args h a' f ->
              frame_of (iteration self args h) = f -> a' = a).
    { intros a' f Ht Hf. rewrite Hf in Hl'.
      rewrite (tried_attempts _ _ _ _ Ht
                 (consistent_events _ _ (proj1 Hh))) in Hl'.
      rewrite Hl', <- app_assoc, nth_error_app2 in Hi by lia.
      rewrite Hlen, Nat.sub_diag in Hi. simpl in Hi. congruence. }
    inversion Hstep as [Hc Heq|a' err f Ht Ho He Htr Heq
                       |a' resp f Ht Ho Htr Heq
                       |a' err f Ht Ho He Htr Heq].
    + exfalso.
      assert (Hstay : forward_request self args w m
                      = Exit (RaiseTimeoutError (error_trace h)) h).
      { apply (forward_request_stable self args w (S i)); [lia|].
        now rewrite forward_request_S, Hrun. }
      rewrite Hstay in Hi. simpl in Hi. apply nth_error_lt in Hi. lia.
    + assert (a' = a) as -> by (apply (Hsame a' f Ht); now rewrite <- Heq).
      exists h, f. rewrite Ho, He.
      pose proof (tried_attempts _ _ _ _ Ht
                    (consistent_events _ _ (proj1 Hh))).
      auto 10.
    + assert (a' = a) as -> by (apply (Hsame a' f Ht); now rewrite <- Heq).
      exists h, f. rewrite Ho.
      pose proof (tried_attempts _ _ _ _ Ht
                    (consistent_events _ _ (proj1 Hh))).
      auto 10.
    + assert (a' = a) as -> by (apply (Hsame a' f Ht); now rewrite <- Heq).
      exists h, f. rewrite Ho, He.
      pose proof (tried_attempts _ _ _ _ Ht
                    (consistent_events _ _ (proj1 Hh))).
      auto 10.
  - exfalso.
    rewrite (forward_request_stable self args w i m r h) in Hi
      by (lia || assumption).
    apply nth_error_lt in Hi. simpl in Hi.
    pose proof (forward_request_length self args w i) as Hlen.
    rewrite Hrun in Hlen. simpl in Hlen. lia.
Qed.



Lemma iteration_exhausted self args f :
  loop_condition (timeout f) = false ->
  iteration self args f = Exit (RaiseTimeoutError (error_trace f)) f.
Proof. intros H. unfold iteration. now rewrite H. Qed.


(** ** The claims *)





(** C3, zero timeout.  A transport constructed with [timeout=0] makes no
    call at all: the first evaluation of the loop condition fails and
    [forward_request] raises [TimeoutError([])], leaving the world as it
    found it. *)
Theorem zero_timeout_no_attempt nodes hdrs args w n :
  forward_request (Transport_init nodes hdrs (Some 0)) args w (S n)
  = Exit (RaiseTimeoutError [])
      {| error_trace := []; timeout := Some 0; world := w; events := [] |}.
Proof. reflexivity. Qed.

(** C10, negative timeout.  A transport constructed with a negative
    timeout behaves as one constructed with [timeout=0]: no call is
    made, [TimeoutError([])] is raised at once and the world is left as
    it was. *)
Theorem negative_timeout_no_attempt nodes hdrs args w t n :
  t < 0 ->
  let c := forward_request (Transport_init nodes hdrs (Some t)) args w
             (S n) in
  let c0 := forward_request (Transport_init nodes hdrs (Some 0)) args w
              (S n) in
  c = Exit (RaiseTimeoutError [])
        {| error_trace := []; timeout := Some t; world := w;
           events := [] |} /\
  result_of c = result_of c0 /\
  error_trace (frame_of c) = error_trace (frame_of c0) /\
  events (frame_of c) = events (frame_of c0) /\
  world (frame_of c) = world (frame_of c0).
Proof.
  intros Ht c c0.
  assert (Hc : c = Exit (RaiseTimeoutError [])
                     {| error_trace := []; timeout := Some t; world := w;
                        events := [] |}).
  { subst c. unfold forward_request. cbn [run].
    rewrite iteration_exhausted; [reflexivity|].
    simpl. apply Qpositive_false. lra. }
  rewrite Hc. repeat split.
Qed.

(** C4, errors that are not retried.  If an attempt of a dispatch ends
    in an exception that is not a [ConnectionError], [forward_request]
    ends with that same exception in the iteration that made the
    attempt, whatever budget is left: the attempt is the last one, the
    exception is not in [error_trace], and more fuel changes nothing. *)
Theorem other_error_propagates self args w m i a err :
  nth_error (attempts (frame_of (forward_request self args w m))) i
    = Some a ->
  outcome a = Raised err -> is_ConnectionError err = false ->
  exists f,
    forward_request self args w (S i) = Exit (Propagate err) f /\
    attempts f =
      firstn i (attempts (frame_of (forward_request self args w m)))
      ++ [a] /\
    length (attempts f) = S i /\
    ~ In err (error_trace f) /\
    forall k, (S i <= k)%nat ->
              forward_request self args w k = Exit (Propagate err) f.
Proof.
  intros Hi Ho He.
  destruct (attempt_step self args w m i a Hi)
    as (h & f & Hrun & Hh & Hlen & Hfirst & Ht & Ha & Hcase).
  rewrite Ho, He in Hcase. destruct Hcase as [Hit Htr].
  assert (Hexit : forward_request self args w (S i)
                  = Exit (Propagate err) f)
    by now rewrite forward_request_S, Hrun.
  exists f. repeat split.
  - exact Hexit.
  - now rewrite Ha, Hfirst.
  - rewrite Ha, length_app, Hlen. simpl. lia.
  - rewrite Htr, (consistent_trace _ _ (proj1 Hh)). intros Hin.
    apply connection_errors_caught in Hin. congruence.
  - intros k Hk. now apply (forward_request_stable self args w (S i)).
Qed.

(** C6, success returns at once.  If an attempt of a dispatch gets a
    response, [forward_request] returns [response.data] in the iteration
    that made the attempt; the attempt is the last one and more fuel
    changes nothing.  With [i = 0]: when the first attempt succeeds,
    exactly one attempt is made. *)
Theorem success_returns_immediately self args w m i a response :
  nth_error (attempts (frame_of (forward_request self args w m))) i
    = Some a ->
  outcome a = Responded response ->
  exists f,
    forward_request self args w (S i) = Exit (Return (data response)) f /\
    attempts f =
      firstn i (attempts (frame_of (forward_request self args w m)))
      ++ [a] /\
    length (attempts f) = S i /\
    forall k, (S i <= k)%nat ->
              forward_request self args w k
              = Exit (Return (data response)) f.
Proof.
  intros Hi Ho.
  destruct (attempt_step self args w m i a Hi)
    as (h & f & Hrun & Hh & Hlen & Hfirst & Ht & Ha & Hcase).
  rewrite Ho in Hcase. destruct Hcase as [Hit Htr].
  assert (Hexit : forward_request self args w (S i)
                  = Exit (Return (data response)) f)
    by now rewrite forward_request_S, Hrun.
  exists f. repeat split.
  - exact Hexit.
  - now rewrite Ha, Hfirst.
  - rewrite Ha, length_app, Hlen. simpl. lia.
  - intros k Hk. now apply (forward_request_stable self args w (S i)).
Qed.

(** C5, no timeout configured.  With [self.timeout] set to [None],
    [forward_request] never raises [TimeoutError]; as long as the
    attempts end in connection errors the loop is still running, with an
    unbounded budget, and makes one more attempt; and when the attempt
    after [k] connection errors gets a response, [forward_request]
    returns it, after [k + 1] attempts. *)
Theorem unbounded_never_times_out self args w :
  self_timeout self = None ->
  (forall n r f,
     forward_request self args w n = Exit r f ->
     forall trace, r <> RaiseTimeoutError trace) /\
  (forall n f,
     forward_request self args w n = Next f ->
     timeout f = None /\ length (attempts f) = n /\
     Forall failed_to_connect (attempts f) /\
     exists a,
       attempts (frame_of (forward_request self args w (S n)))
       = attempts f ++ [a]) /\
  (forall m k a response,
     nth_error (attempts (frame_of (forward_request self args w m))) k
       = Some a ->
     outcome a = Responded response ->
     exists f,
       forward_request self args w (S k)
         = Exit (Return (data response)) f /\
       length (error_trace f) = k /\ length (attempts f) = S k).
Proof.
  intros Hnone.
  assert (Hunbounded : forall f, Consistent self f -> timeout f = None).
  { intros f Hf.
    now rewrite (consistent_timeout _ _ Hf), Hnone, remaining_None. }
  split; [|split].
  - intros n r f Hrun trace ->.
    pose proof (forward_request_Looping self args w n) as Hstate.
    rewrite Hrun in Hstate. destruct Hstate as (Hf & Hleft & _).
    inversion Hleft as [_ Hc| |]. rewrite (Hunbounded f Hf) in Hc.
    discriminate.
  - intros n f Hrun.
    pose proof (forward_request_Looping self args w n) as Hstate.
    rewrite Hrun in Hstate. destruct Hstate as [Hf Hlen].
    repeat split; [now apply Hunbounded, Hf | exact Hlen | apply Hf |].
    rewrite forward_request_S, Hrun.
    pose proof (iteration_Step self args f) as Hstep.
    pose proof (consistent_events _ _ (proj1 Hf)) as Hev.
    inversion Hstep as [Hc|a err f' Ht _ _ _|a resp f' Ht _ _
                       |a err f' Ht _ _ _].
    + rewrite (Hunbounded f (proj1 Hf)) in Hc. discriminate.
    + exists a. apply (tried_attempts _ _ _ _ Ht Hev).
    + exists a. apply (tried_attempts _ _ _ _ Ht Hev).
    + exists a. apply (tried_attempts _ _ _ _ Ht Hev).
  - intros m k a response Hk Ho.
    destruct (attempt_step self args w m k a Hk)
      as (h & f & Hrun & Hh & Hlen & _ & _ & Ha & Hcase).
    rewrite Ho in Hcase. destruct Hcase as [Hit Htr].
    exists f. repeat split.
    + now rewrite forward_request_S, Hrun.
    + rewrite Htr, (consistent_trace _ _ (proj1 Hh)).
      rewrite connection_errors_length; [exact Hlen | apply Hh].
    + rewrite Ha, length_app, Hlen. simpl. lia.
Qed.

(** C7, as the code has it.  When an attempt of a dispatch ends in a
    [ConnectionError], the iteration that made it appends the exception
    to [error_trace] and leaves the loop running: nothing is returned or
    raised at that point.  The calls of that iteration are
    [get_connection()], [time()], [connection.request(...)] and
    [time()]; no call of the dispatch reports an outcome to the pool. *)
Theorem connection_failure_retried self args w m i a err :
  nth_error (attempts (frame_of (forward_request self args w m))) i
    = Some a ->
  outcome a = Raised err -> is_ConnectionError err = true ->
  exists h f,
    forward_request self args w i = Next h /\
    forward_request self args w (S i) = Next f /\
    error_trace f = error_trace h ++ [err] /\
    nth_error (error_trace f) i = Some err /\
    events f = events h ++
      [EvGetConnection (connection a); EvTime (started a);
       EvRequest (connection a) args (timeout h) (Raised err);
       EvTime (finished a)] /\
    forall k,
      existsb is_report (events (frame_of (forward_request self args w k)))
      = false.
Proof.
  intros Hi Ho He.
  destruct (attempt_step self args w m i a Hi)
    as (h & f & Hrun & Hh & Hlen & Hfirst & Ht & Ha & Hcase).
  rewrite Ho, He in Hcase. destruct Hcase as [Hit Htr].
  exists h, f. repeat split.
  - exact Hrun.
  - now rewrite forward_request_S, Hrun.
  - exact Htr.
  - rewrite Htr, nth_error_app2;
      rewrite (consistent_trace _ _ (proj1 Hh)),
        connection_errors_length, Hlen by apply Hh; [|lia].
    now rewrite Nat.sub_diag.
  - rewrite (tried_events _ _ _ _ Ht). unfold events_of.
    now rewrite (tried_sent _ _ _ _ Ht), (tried_timeout _ _ _ _ Ht), Ho.
  - intros k.
    rewrite (consistent_events _ _
               (forward_request_Consistent self args w k)).
    apply no_report.
Qed.

(** C8, no attempt without budget.  Once the remaining budget of a
    dispatch is a number not above zero, more fuel leaves the frame as it
    is: no further call is made.  And every attempt of a dispatch was
    made from a frame whose budget, handed to the attempt, was [None] or
    strictly positive. *)
Theorem no_attempt_without_budget self args w :
  (forall n m t,
     timeout (frame_of (forward_request self args w n)) = Some t ->
     t <= 0 -> (n <= m)%nat ->
     frame_of (forward_request self args w m)
     = frame_of (forward_request self args w n)) /\
  (forall m i a,
     nth_error (attempts (frame_of (forward_request self args w m))) i
       = Some a ->
     exists h,
       forward_request self args w i = Next h /\
       passed_timeout a = timeout h /\
       (timeout h = None \/ exists t, timeout h = Some t /\ 0 < t)).
Proof.
  split.
  - intros n m t Ht Hle Hnm.
    destruct (forward_request self args w n) as [h|r h] eqn:Hrun;
      simpl in *.
    + destruct (Nat.eq_dec n m) as [<-|Hne]; [now rewrite Hrun|].
      rewrite (forward_request_stable self args w (S n) m
                 (RaiseTimeoutError (error_trace h)) h); [reflexivity|lia|].
      rewrite forward_request_S, Hrun. apply iteration_exhausted.
      rewrite Ht. simpl. now apply Qpositive_false.
    + now rewrite (forward_request_stable self args w n m r h).
  - intros m i a Hi.
    destruct (attempt_step self args w m i a Hi)
      as (h & f & Hrun & _ & _ & _ & Ht & _).
    exists h. repeat split; [exact Hrun|apply Ht|].
    pose proof (tried_condition _ _ _ _ Ht) as Hc.
    destruct (timeout h) as [t|]; [right|now left].
    exists t. split; [reflexivity|]. now apply Qpositive_true.
Qed.


(** ** Further properties of a dispatch *)













Lemma total_elapsed_firstn_nonneg l i :
  (forall a, In a l -> started a <= finished a) ->
  0 <= total_elapsed (firstn i l).
Proof.
  revert i. induction l as [|a l IH]; intros [|i] H; simpl; try lra.
  assert (started a <= finished a) by (apply H; now left).
  assert (0 <= total_elapsed (firstn i l))
    by (apply IH; intros; apply H; now right).
  unfold elapsed. lra.
Qed.

Lemma total_elapsed_firstn_mono l i j :
  (forall a, In a l -> started a <= finished a) -> (i <= j)%nat ->
  total_elapsed (firstn i l) <= total_elapsed (firstn j l).
Proof.
  revert i j. induction l as [|a l IH]; intros i j H Hij.
  - rewrite !firstn_nil. lra.
  - destruct i as [|i].
    + apply (total_elapsed_firstn_nonneg (a :: l) j H).
    + destruct j as [|j]; [lia|]. simpl.
      assert (total_elapsed (firstn i l) <= total_elapsed (firstn j l))
        by (apply IH; [intros; apply H; now right | lia]).
      lra.
Qed.

(** Timeouts shrink.  With [self.timeout = T], if the clock never runs
    backwards while a request is in flight, a later attempt is never given
    a longer timeout than an earlier one, and none is given more than
    [T]. *)
Theorem timeouts_never_grow self args w T m i j a (b : Attempt) :
  self_timeout self = Some T ->
  (forall c,
     In c (attempts (frame_of (forward_request self args w m))) ->
     started c <= finished c) ->
  nth_error (attempts (frame_of (forward_request self args w m))) i
    = Some a ->
  nth_error (attempts (frame_of (forward_request self args w m))) j
    = Some b ->
  (i <= j)%nat ->
  exists ta tb,
    passed_timeout a = Some ta /\ passed_timeout b = Some tb /\
    tb <= ta /\ ta <= T.
Proof.
  intros HT Hclock Hi Hj Hij.
  destruct (attempt_step self args w m i a Hi)
    as (ha & fa & _ & Hha & _ & Hfa & Hta & _).
  destruct (attempt_step self args w m j b Hj)
    as (hb & fb & _ & Hhb & _ & Hfb & Htb & _).
  pose proof (tried_timeout _ _ _ _ Hta) as Hpa.
  pose proof (tried_timeout _ _ _ _ Htb) as Hpb.
  rewrite (consistent_timeout _ _ (proj1 Hha)), HT, Hfa in Hpa.
  rewrite (consistent_timeout _ _ (proj1 Hhb)), HT, Hfb in Hpb.
  set (L := attempts (frame_of (forward_request self args w m))) in *.
  destruct (remaining_Some T (firstn i L)) as (ta & Hra & Hea).
  destruct (remaining_Some T (firstn j L)) as (tb & Hrb & Heb).
  exists ta, tb.
  pose proof (total_elapsed_firstn_mono L i j Hclock Hij).
  pose proof (total_elapsed_firstn_nonneg L i Hclock).
  repeat split; try congruence; lra.
Qed.

(** What the loop does when every request, in whatever state of the
    world, is refused. *)
Lemma iteration_all_refused self args f :
  loop_condition (timeout f) = true ->
  (forall c q t w', connection_failure (fst (request c q t w')) = true) ->
  exists f' w1 w3,
    iteration self args f = Next f' /\
    timeout f' = charge (timeout f) (fst (time w3) - fst (time w1)).
Proof.
  intros Hc Hfail. unfold iteration. rewrite Hc.
  destruct (get_connection _ _) as [c w1].
  destruct (time w1) as [t0 w2] eqn:E1.
  pose proof (Hfail c args (timeout f) w2) as Ho.
  destruct (request c args (timeout f) w2) as [o w3].
  destruct (time w3) as [t1 w4] eqn:E3.
  destruct o as [resp|err]; simpl in Ho; [discriminate|]. rewrite Ho.
  eexists _, w1, w3. split; [reflexivity|]. simpl. now rewrite E1, E3.
Qed.

(** Waiting forever.  With [self.timeout] set to [None], if every request
    is refused with a connection error, [forward_request] neither returns
    nor raises: after any number of evaluations of the loop condition the
    loop is still running, one failed attempt behind each. *)
Theorem unbounded_dispatch_never_ends self args w n :
  self_timeout self = None ->
  (forall c q t w', connection_failure (fst (request c q t w')) = true) ->
  exists f,
    forward_request self args w n = Next f /\
    length (attempts f) = n /\ length (error_trace f) = n.
Proof.
  intros Hnone Hfail.
  assert (Hnext : exists f, forward_request self args w n = Next f).
  { induction n as [|n [f Hf]]; [now exists (entry self w)|].
    rewrite forward_request_S, Hf.
    pose proof (forward_request_Looping self args w n) as Hstate.
    rewrite Hf in Hstate. destruct Hstate as [[Hcons _] _].
    destruct (iteration_all_refused self args f) as (f' & _ & _ & Hit & _);
      [|exact Hfail|now exists f'].
    now rewrite (consistent_timeout _ _ Hcons), Hnone, remaining_None. }
  destruct Hnext as [f Hf]. exists f.
  pose proof (forward_request_Looping self args w n) as Hstate.
  rewrite Hf in Hstate. destruct Hstate as [[Hcons Hall] Hlen].
  repeat split; auto.
  rewrite (consistent_trace _ _ Hcons), connection_errors_length; auto.
Qed.

(** Only the clock bounds a dispatch.  With a positive [self.timeout], if
    every request is refused with a connection error and the clock always
    gives the same reading, the budget is never used up: the loop is still
    running after any number of attempts.  Nothing but elapsed time limits
    the number of attempts. *)
Theorem stalled_clock_never_times_out self args w T t0 n :
  self_timeout self = Some T -> 0 < T ->
  (forall c q t w', connection_failure (fst (request c q t w')) = true) ->
  (forall w', fst (time w') == t0) ->
  exists f t,
    forward_request self args w n = Next f /\
    timeout f = Some t /\ t == T /\ length (attempts f) = n.
Proof.
  intros HT Hpos Hfail Hclock.
  assert (Hnext : exists f t, forward_request self args w n = Next f /\
                              timeout f = Some t /\ t == T).
  { induction n as [|n (f & t & Hf & Ht & Heq)].
    - exists (entry self w), T. simpl. rewrite HT.
      split; [reflexivity|]. split; [reflexivity|]. reflexivity.
    - rewrite forward_request_S, Hf.
      destruct (iteration_all_refused self args f)
        as (f' & w1 & w3 & Hit & Hcharged); [|exact Hfail|].
      + rewrite Ht. simpl. apply Qpositive_true. lra.
      + rewrite Ht in Hcharged. simpl in Hcharged.
        exists f', (t - (fst (time w3) - fst (time w1))).
        split; [exact Hit|]. split; [exact Hcharged|].
        pose proof (Hclock w1). pose proof (Hclock w3). lra. }
  destruct Hnext as (f & t & Hf & Ht & Heq). exists f, t.
  pose proof (forward_request_Looping self args w n) as Hstate.
  rewrite Hf in Hstate. destruct Hstate as [_ Hlen]. auto.
Qed.



End Properties.

(** * The theorems at work on the scripted world *)

#[local] Existing Instance Scripted.wire.
#[local] Existing Instance Scripted.collaborators.



(** A budget of minus one second. *)
Lemma negative_timeout_no_attempt_witness :
  Scripted.dispatch (Some (-1)) Scripted.flaky 1
  = Exit (RaiseTimeoutError [])
      {| error_trace := []; timeout := Some (-1);
         world := Scripted.start Scripted.flaky; events := [] |} /\
  result_of (Scripted.dispatch (Some (-1)) Scripted.flaky 1)
  = result_of (Scripted.dispatch (Some 0) Scripted.flaky 1).
Proof.
  destruct (@negative_timeout_no_attempt Scripted.wire
              Scripted.collaborators Scripted.two_nodes None Scripted.get
              (Scripted.start Scripted.flaky) (-1) 0)
    as (Hexit & Hresult & _).
  - unfold Qlt. simpl. lia.
  - split; [exact Hexit | exact Hresult].
Defined.

(** The second node answers with an error that is not a connection
    error. *)
Lemma other_error_propagates_witness :
  exists f,
    Scripted.dispatch (Some 10) Scripted.faulty 2
    = Exit (Propagate (Scripted.OtherError "500")) f /\
    length (attempts f) = 2%nat /\
    error_trace f = [Scripted.ConnectionError "refused"] /\
    ~ In (Scripted.OtherError "500") (error_trace f) /\
    Scripted.dispatch (Some 10) Scripted.faulty 7
    = Exit (Propagate (Scripted.OtherError "500")) f.
Proof.
  destruct (@other_error_propagates Scripted.wire Scripted.collaborators
              (Scripted.transport (Some 10)) Scripted.get
              (Scripted.start Scripted.faulty) 5 1
              {| connection := Scripted.b; sent := Scripted.get;
                 passed_timeout := Some 9; started := 101; finished := 102;
                 outcome := Scripted.broken "500" |}
              (Scripted.OtherError "500"))
    as (f & Hexit & _ & Hlen & Hnot & Hstable).
  - vm_compute. reflexivity.
  - reflexivity.
  - reflexivity.
  - exists f. repeat split; [exact Hexit|exact Hlen| |exact Hnot|].
    + change (Scripted.dispatch (Some 10) Scripted.faulty 2
              = Exit (Propagate (Scripted.OtherError "500")) f) in Hexit.
      vm_compute in Hexit. now injection Hexit as <-.
    + apply Hstable. lia.
Defined.

(** The first node answers. *)
Lemma success_returns_immediately_witness :
  exists f,
    Scripted.dispatch (Some 10) [(Scripted.ok "{}", 1)] 1
    = Exit (Return "{}") f /\
    length (attempts f) = 1%nat /\
    Scripted.dispatch (Some 10) [(Scripted.ok "{}", 1)] 4
    = Exit (Return "{}") f.
Proof.
  destruct (@success_returns_immediately Scripted.wire
              Scripted.collaborators (Scripted.transport (Some 10))
              Scripted.get (Scripted.start [(Scripted.ok "{}", 1)]) 1 0
              {| connection := Scripted.a; sent := Scripted.get;
                 passed_timeout := Some 10; started := 100; finished := 101;
                 outcome := Scripted.ok "{}" |}
              (200%Z, "{}"))
    as (f & Hexit & _ & Hlen & Hstable).
  - vm_compute. reflexivity.
  - reflexivity.
  - exists f. repeat split; [exact Hexit|exact Hlen|].
    apply Hstable. lia.
Defined.

(** Without a timeout, two refusals and then a response. *)
Lemma unbounded_never_times_out_witness :
  (forall n r f,
     Scripted.dispatch None
       ((Scripted.refused, 2) :: Scripted.flaky) n = Exit r f ->
     forall trace, r <> RaiseTimeoutError trace) /\
  exists f,
    Scripted.dispatch None ((Scripted.refused, 2) :: Scripted.flaky) 3
    = Exit (Return "{}") f /\
    length (error_trace f) = 2%nat /\ length (attempts f) = 3%nat.
Proof.
  destruct (@unbounded_never_times_out Scripted.wire Scripted.collaborators
              (Scripted.transport None) Scripted.get
              (Scripted.start ((Scripted.refused, 2) :: Scripted.flaky))
              eq_refl)
    as (Hnever & _ & Hreturns).
  split; [exact Hnever|].
  apply (Hreturns 3%nat 2%nat
           {| connection := Scripted.a; sent := Scripted.get;
              passed_timeout := None; started := 104; finished := 209 # 2;
              outcome := Scripted.ok "{}" |}
           (200%Z, "{}")).
  - vm_compute. reflexivity.
  - reflexivity.
Defined.

(** A refused connection is recorded and the loop goes on. *)
Lemma connection_failure_retried_witness :
  exists h f,
    Scripted.dispatch None Scripted.flaky 0 = Next h /\
    Scripted.dispatch None Scripted.flaky 1 = Next f /\
    error_trace f = error_trace h ++ [Scripted.ConnectionError "refused"] /\
    events f = events h ++
      [EvGetConnection Scripted.a; EvTime 100;
       EvRequest Scripted.a Scripted.get (timeout h) Scripted.refused;
       EvTime 102].
Proof.
  destruct (@connection_failure_retried Scripted.wire Scripted.collaborators
              (Scripted.transport None) Scripted.get
              (Scripted.start Scripted.flaky) 2 0
              {| connection := Scripted.a; sent := Scripted.get;
                 passed_timeout := None; started := 100; finished := 102;
                 outcome := Scripted.refused |}
              (Scripted.ConnectionError "refused"))
    as (h & f & Hh & Hf & Htrace & _ & Hevents & _).
  - vm_compute. reflexivity.
  - reflexivity.
  - reflexivity.
  - exists h, f. repeat split; assumption.
Defined.

(** C7 as the claim states it fails: a dispatch whose first request is
    refused makes no call that reports anything to the pool. *)
Lemma connection_failure_not_reported :
  ~ (forall i a err,
       nth_error
         (attempts (frame_of (Scripted.dispatch None Scripted.flaky 2))) i
         = Some a ->
       outcome a = Raised err -> is_ConnectionError err = true ->
       exists r,
         In (EvReportOutcome r)
            (events (frame_of (Scripted.dispatch None Scripted.flaky 2)))).
Proof.
  intros H.
  destruct (H 0%nat
              {| connection := Scripted.a; sent := Scripted.get;
                 passed_timeout := None; started := 100; finished := 102;
                 outcome := Scripted.refused |}
              (Scripted.ConnectionError "refused")
              eq_refl eq_refl eq_refl) as (r & Hin).
  vm_compute in Hin.
  repeat (destruct Hin as [Hin|Hin]; [discriminate|]). exact Hin.
Qed.

(** A budget of three seconds used up by three refusals: nothing happens
    afterwards, and the third attempt was made with one second left. *)
Lemma no_attempt_without_budget_witness :
  frame_of (Scripted.dispatch (Some 3) [] 9)
  = frame_of (Scripted.dispatch (Some 3) [] 3) /\
  exists h,
    Scripted.dispatch (Some 3) [] 2 = Next h /\
    (timeout h = None \/ exists t, timeout h = Some t /\ 0 < t).
Proof.
  destruct (@no_attempt_without_budget Scripted.wire Scripted.collaborators
              (Scripted.transport (Some 3)) Scripted.get (Scripted.start []))
    as (Hstop & Hchecked).
  split.
  - apply (Hstop 3%nat 9%nat 0).
    + vm_compute. reflexivity.
    + unfold Qle. simpl. lia.
    + lia.
  - destruct (Hchecked 3%nat 2%nat
                {| connection := Scripted.a; sent := Scripted.get;
                   passed_timeout := Some 1; started := 102;
                   finished := 103; outcome := Scripted.refused |})
      as (h & Hh & _ & Hpos).
    + vm_compute. reflexivity.
    + exists h. split; [exact Hh | exact Hpos].
Defined.


(** One iteration of the scripted world, without a timeout, whose request
    is refused after [d] seconds. *)
Lemma scripted_iteration_refused tr clk trn d rest evs :
  iteration (Scripted.transport None) Scripted.get
    {| error_trace := tr; timeout := None;
       world := {| Scripted.clock := clk; Scripted.turn := trn;
                   Scripted.script := (Scripted.refused, d) :: rest |};
       events := evs |}
  = Next
      {| error_trace := tr ++ [Scripted.ConnectionError "refused"];
         timeout := None;
         world := {| Scripted.clock := clk + d; Scripted.turn := S trn;
                     Scripted.script := rest |};
         events := evs ++
           [EvGetConnection
              (nth (Nat.modulo trn 2) (self_connection_pool
                                         (Scripted.transport None))
                 Scripted.nowhere);
            EvTime clk;
            EvRequest
              (nth (Nat.modulo trn 2) (self_connection_pool
                                         (Scripted.transport None))
                 Scripted.nowhere)
              Scripted.get None Scripted.refused;
            EvTime (clk + d)] |}.
Proof. reflexivity. Qed.

(** Without a timeout, any number of refusals followed by a response: the
    response is returned after one attempt per refusal and one more. *)
Lemma scripted_run_until_success k body g :
  timeout g = None ->
  Scripted.script (world g)
  = repeat (Scripted.refused, 1) k ++ [(Scripted.ok body, 1)] ->
  exists f,
    run (Scripted.transport None) Scripted.get (S k) g
    = Exit (Return body) f /\
    error_trace f
    = error_trace g ++ repeat (Scripted.ConnectionError "refused") k /\
    length (events f) = (length (events g) + 4 * S k)%nat.
Proof.
  revert g. induction k as [|k IH]; intros [tr tmo [clk trn scr] evs] Ht Hs;
    simpl in Ht, Hs; subst tmo scr.
  - eexists. split; [reflexivity|]. simpl.
    rewrite app_nil_r, length_app. simpl. split; [reflexivity|lia].
  - change (repeat (Scripted.refused, 1) (S k) ++ [(Scripted.ok body, 1)])
      with ((Scripted.refused, 1)
            :: (repeat (Scripted.refused, 1) k ++ [(Scripted.ok body, 1)])).
    rewrite run_unfold, scripted_iteration_refused.
    match goal with
    | |- context [run _ _ (S k) ?g'] =>
        destruct (IH g' eq_refl eq_refl) as (f & Hrun & Htrace & Hlen)
    end.
    exists f. split; [exact Hrun|]. split.
    + rewrite Htrace. simpl. now rewrite <- app_assoc.
    + rewrite Hlen. simpl. rewrite length_app. simpl. lia.
Qed.

Lemma scripted_dispatch_until_success k body :
  exists f,
    Scripted.dispatch None
      (repeat (Scripted.refused, 1) k ++ [(Scripted.ok body, 1)]) (S k)
    = Exit (Return body) f /\
    error_trace f = repeat (Scripted.ConnectionError "refused") k /\
    length (events f) = (4 * S k)%nat.
Proof.
  exact (scripted_run_until_success k body
           (entry (Scripted.transport None) (Scripted.start _))
           eq_refl eq_refl).
Qed.

(** ** The further properties at work *)





Lemma timeouts_never_grow_witness :
  exists ta tb, Some 3 = Some ta /\ Some 1 = Some tb /\ tb <= ta /\ ta <= 3.
Proof.
  apply (@timeouts_never_grow Scripted.wire Scripted.collaborators
           (Scripted.transport (Some 3)) Scripted.get (Scripted.start [])
           3 3 0 2
           {| connection := Scripted.a; sent := Scripted.get;
              passed_timeout := Some 3; started := 100; finished := 101;
              outcome := Scripted.refused |}
           {| connection := Scripted.a; sent := Scripted.get;
              passed_timeout := Some 1; started := 102; finished := 103;
              outcome := Scripted.refused |} eq_refl).
  - intros c Hc. vm_compute in Hc.
    destruct Hc as [<-|[<-|[<-|[]]]]; unfold Qle; vm_compute; discriminate.
  - vm_compute. reflexivity.
  - vm_compute. reflexivity.
  - lia.
Defined.

Lemma unbounded_dispatch_never_ends_witness :
  exists f,
    Unreachable.dispatch None 5 = Next f /\
    length (attempts f) = 5%nat /\ length (error_trace f) = 5%nat.
Proof.
  apply (@unbounded_dispatch_never_ends Scripted.wire
           Unreachable.collaborators (Scripted.transport None) Scripted.get
           0%nat 5 eq_refl).
  intros c q t w'. reflexivity.
Defined.

Lemma stalled_clock_never_times_out_witness :
  exists f t,
    Unreachable.dispatch (Some 3) 5 = Next f /\
    timeout f = Some t /\ t == 3 /\ length (attempts f) = 5%nat.
Proof.
  apply (@stalled_clock_never_times_out Scripted.wire
           Unreachable.collaborators (Scripted.transport (Some 3))
           Scripted.get 0%nat 3 100 5 eq_refl).
  - unfold Qlt. simpl. lia.
  - intros c q t w'. reflexivity.
  - intros w'. reflexivity.
Defined.

